(** * Spin the Match: the wheel of [src/App.tsx]

    A shallow embedding of the [FootballPredictor] component: the React
    state, the event handlers ([spin], its [handleDone] closure, [reset],
    the resize observer) and the pure arithmetic they use ([clamp], the
    winning-index formula).

    Numbers.  A JavaScript [number] is modelled as an exact rational ([Q]):
    the arithmetic of the source is read over the rationals, without the
    rounding of IEEE doubles.  A number the source obtains from [Math.floor]
    is integer valued and is kept as a [Z].  Rationals are
    compared with [==] where a value is computed and with [=] where a value
    is stored as it is.

    Strings.  Names are [string]s of 8-bit characters; [trim] removes the
    ASCII white space of [String.prototype.trim]. *)

From Stdlib Require Import ZArith QArith Qround Lqa Lia Bool List String Ascii.
Import ListNotations.
Local Open Scope Z_scope.
Local Open Scope Q_scope.

(** ** JavaScript arithmetic over the rationals *)

Module JS.

(** [Math.floor]. *)
Definition floor (x : Q) : Z := Qfloor x.

(** Truncation toward zero, the quotient of [%]. *)
Definition trunc (x : Q) : Z :=
  if Qle_bool 0 x then Qfloor x else Qceiling x.

(** The [%] operator: the remainder takes the sign of the dividend. *)
Definition rem (a b : Q) : Q := a - b * inject_Z (trunc (a / b)).

(** [Math.round]: the nearest integer, halves go up. *)
Definition round (x : Q) : Z := Qfloor (x + (1 # 2)).

(** [Math.max] and [Math.min] on integer valued numbers. *)
Definition max (a b : Z) : Z := Z.max a b.
Definition min (a b : Z) : Z := Z.min a b.

(** [arr[i]] for an integer valued index: [undefined] ([None]) out of
    range. *)
Definition index {A} (arr : list A) (i : Z) : option A :=
  if (i <? 0)%Z then None else nth_error arr (Z.to_nat i).

(** Characters removed by [String.prototype.trim], in ASCII: tab, line
    feed, vertical tab, form feed, carriage return, space. *)
Definition is_space (c : ascii) : bool :=
  let n := nat_of_ascii c in
  ((9 <=? n) && (n <=? 13) || (n =? 32))%nat.

Fixpoint trim_start (s : string) : string :=
  match s with
  | EmptyString => EmptyString
  | String c r => if is_space c then trim_start r else s
  end.

(** [trim_end] drops the trailing white space: a character is kept when
    it is not white space or something is kept after it. *)
Fixpoint trim_end (s : string) : string :=
  match s with
  | EmptyString => EmptyString
  | String c r =>
      match trim_end r with
      | EmptyString => if is_space c then EmptyString else String c EmptyString
      | r' => String c r'
      end
  end.

Definition trim (s : string) : string := trim_end (trim_start s).

End JS.

(** ** Data model *)

(** [interface Team]. *)
Record Team := mkTeam { name : string; color : string }.

(** The union type of [Outcome.type]. *)
Inductive OutcomeType := team1_t | team2_t | draw_t.

(** [interface Outcome]. *)
Record Outcome := mkOutcome { label : string; type : OutcomeType }.

(** [function clamp(n, min, max)]; every call site passes integer valued
    numbers. *)
Definition clamp (n min max : Z) : Z := JS.max min (JS.min max n).

(** The [outcomes] memo: the three segments in wheel order. *)
Definition outcomes_of (n1 n2 : string) : list Outcome :=
  [ mkOutcome n1 team1_t; mkOutcome "DRAW" draw_t; mkOutcome n2 team2_t ].

(** ** The winning segment ([handleDone], lines 111-114) *)

Definition normalizedRotation (targetRotation : Q) : Q :=
  JS.rem (JS.rem targetRotation 360 + 360) 360.

(** [(360 - normalizedRotation) % 360], the angle under the pointer in the
    frame of the wheel. *)
Definition effectiveAngle (targetRotation : Q) : Q :=
  JS.rem (360 - normalizedRotation targetRotation) 360.

Definition winningIndex_of (segments : Z) (targetRotation : Q) : Z :=
  let segStep := 360 / inject_Z segments in
  Z.rem (JS.floor (effectiveAngle targetRotation / segStep)) segments.

(** [outcomes.length] is 3 for every pair of names. *)
Definition winningIndex (targetRotation : Q) : Z :=
  winningIndex_of 3 targetRotation.

(** The start of segment [i]: the gradient paints slice [i] from
    [i * seg] to [(i + 1) * seg] degrees with [seg = 360 / 3]. *)
Definition segment_start (i : Z) : Q := inject_Z i * (360 / 3).

(** The formula of the specification, written as it is stated there. *)
Definition winningIndex_spec (targetRotation : Q) : Z :=
  (Qfloor (JS.rem (360 - JS.rem (JS.rem targetRotation 360 + 360) 360) 360 / 120)
     mod 3)%Z.

(** ** Component state *)

(** The [handleDone] closure registered by [spin]: it captures the
    [targetRotation] and the [outcomes] of the render that started the
    spin. *)
Record Handler := mkHandler { h_target : Q; h_outcomes : list Outcome }.

(** The [useState] cells of [FootballPredictor], followed by what the
    handlers keep outside React: the [rotate(..deg)] that [spin] writes to
    [wheel.style.transform], the [transitionend] listeners of the wheel and
    the number of pending [setTimeout] callbacks. *)
Record State := mkState {
  team1 : Team;
  team2 : Team;
  spinning : bool;
  rotation : Q;
  winner : option Outcome;
  showResult : bool;
  wheelSize : Z;
  wheelTransform : Q;
  listeners : list Handler;
  timers : nat
}.

Definition initial : State :=
  {| team1 := mkTeam "Team 1" "#4AA1F3";
     team2 := mkTeam "Team 2" "#C8102E";
     spinning := false;
     rotation := 0;
     winner := None;
     showResult := false;
     wheelSize := 380;
     wheelTransform := 0;
     listeners := [];
     timers := 0 |}.

Definition setTeam1 (v : Team) (s : State) : State :=
  mkState v (team2 s) (spinning s) (rotation s) (winner s) (showResult s)
          (wheelSize s) (wheelTransform s) (listeners s) (timers s).
Definition setTeam2 (v : Team) (s : State) : State :=
  mkState (team1 s) v (spinning s) (rotation s) (winner s) (showResult s)
          (wheelSize s) (wheelTransform s) (listeners s) (timers s).
Definition setSpinning (v : bool) (s : State) : State :=
  mkState (team1 s) (team2 s) v (rotation s) (winner s) (showResult s)
          (wheelSize s) (wheelTransform s) (listeners s) (timers s).
Definition setRotation (v : Q) (s : State) : State :=
  mkState (team1 s) (team2 s) (spinning s) v (winner s) (showResult s)
          (wheelSize s) (wheelTransform s) (listeners s) (timers s).
Definition setWinner (v : option Outcome) (s : State) : State :=
  mkState (team1 s) (team2 s) (spinning s) (rotation s) v (showResult s)
          (wheelSize s) (wheelTransform s) (listeners s) (timers s).
Definition setShowResult (v : bool) (s : State) : State :=
  mkState (team1 s) (team2 s) (spinning s) (rotation s) (winner s) v
          (wheelSize s) (wheelTransform s) (listeners s) (timers s).
Definition setWheelSize (v : Z) (s : State) : State :=
  mkState (team1 s) (team2 s) (spinning s) (rotation s) (winner s)
          (showResult s) v (wheelTransform s) (listeners s) (timers s).
Definition setWheelTransform (v : Q) (s : State) : State :=
  mkState (team1 s) (team2 s) (spinning s) (rotation s) (winner s)
          (showResult s) (wheelSize s) v (listeners s) (timers s).
Definition setListeners (v : list Handler) (s : State) : State :=
  mkState (team1 s) (team2 s) (spinning s) (rotation s) (winner s)
          (showResult s) (wheelSize s) (wheelTransform s) v (timers s).
Definition setTimers (v : nat) (s : State) : State :=
  mkState (team1 s) (team2 s) (spinning s) (rotation s) (winner s)
          (showResult s) (wheelSize s) (wheelTransform s) (listeners s) v.

(** ** Derived render values *)

(** [const disable] (lines 38-43). *)
Definition disable (s : State) : bool :=
  spinning s
  || String.eqb (JS.trim (name (team1 s))) ""
  || String.eqb (JS.trim (name (team1 s))) "Team 1"
  || String.eqb (JS.trim (name (team2 s))) ""
  || String.eqb (JS.trim (name (team2 s))) "Team 2".

Definition outcomes (s : State) : list Outcome :=
  outcomes_of (name (team1 s)) (name (team2 s)).

(** The result modal is rendered under [showResult && winner] (line 386). *)
Definition modalShown (s : State) : bool :=
  showResult s && match winner s with Some _ => true | None => false end.

(** ** Handlers *)

(** [fullSpins], [randomAngle] and [targetRotation] of [spin], as functions
    of the two [Math.random()] draws. *)
Definition fullSpins (r1 : Q) : Z := (6 + JS.floor (r1 * 3))%Z.
Definition randomAngle (r2 : Q) : Q := r2 * 360.
Definition targetRotation (current r1 r2 : Q) : Q :=
  current + (inject_Z (fullSpins r1) * 360) + randomAngle r2.

(** [function spin()], with the wheel mounted ([wheelRef.current] set). *)
Definition spin (r1 r2 : Q) (s : State) : State :=
  if spinning s then s
  else
    let target := targetRotation (rotation s) r1 r2 in
    setListeners (listeners s ++ [mkHandler target (outcomes s)])
      (setWheelTransform target
        (setShowResult false (setWinner None (setSpinning true s)))).

(** [handleDone]; removing itself from the listeners is done by
    [transitionEnd] below. *)
Definition handleDone (h : Handler) (s : State) : State :=
  let segments := Z.of_nat (List.length (h_outcomes h)) in
  let winningIndex := winningIndex_of segments (h_target h) in
  setTimers (S (timers s))
    (setSpinning false
      (setWinner (JS.index (h_outcomes h) winningIndex)
        (setRotation (h_target h) s))).

(** A [transitionend] event on the wheel: every registered listener runs
    once and unregisters itself. *)
Definition transitionEnd (s : State) : State :=
  fold_left (fun acc h => handleDone h acc) (listeners s) (setListeners [] s).

(** The callback of [setTimeout(() => setShowResult(true), 250)]. *)
Definition revealTimeout (s : State) : State :=
  match timers s with
  | O => s
  | S n => setShowResult true (setTimers n s)
  end.

(** [function reset()]. *)
Definition reset (s : State) : State := setShowResult false (setWinner None s).

(** The backdrop, the close cross and the Close button. *)
Definition closeResult (s : State) : State := setShowResult false s.

(** The SPIN AGAIN button of the modal. *)
Definition spinAgain (s : State) : State := reset (setShowResult false s).

(** The [ResizeObserver] callback; [entry] is
    [entries[0]?.contentRect?.width], [None] when it is missing. *)
Definition onResize (entry : option Q) (s : State) : State :=
  let w := match entry with Some w => w | None => 0 end in
  let target := clamp (JS.floor (w * (98 # 100))) 320 640 in
  setWheelSize target s.

(** ** Events *)

Inductive Event :=
| EditName1 (v : string)
| EditName2 (v : string)
| EditColor1 (v : string)
| EditColor2 (v : string)
| ClickSpin (r1 r2 : Q)
| TransitionEnd
| RevealTimeout
| ClickClose
| ClickSpinAgain
| Resize (entry : option Q).

(** A disabled button delivers no click; the modal buttons exist only
    while the modal is rendered. *)
Definition step (e : Event) (s : State) : State :=
  match e with
  | EditName1 v => setTeam1 (mkTeam v (color (team1 s))) s
  | EditName2 v => setTeam2 (mkTeam v (color (team2 s))) s
  | EditColor1 v => setTeam1 (mkTeam (name (team1 s)) v) s
  | EditColor2 v => setTeam2 (mkTeam (name (team2 s)) v) s
  | ClickSpin r1 r2 => if disable s then s else spin r1 r2 s
  | TransitionEnd => transitionEnd s
  | RevealTimeout => revealTimeout s
  | ClickClose => if modalShown s then closeResult s else s
  | ClickSpinAgain => if modalShown s then spinAgain s else s
  | Resize entry => onResize entry s
  end.

Fixpoint run (tr : list Event) (s : State) : State :=
  match tr with
  | [] => s
  | e :: tr' => run tr' (step e s)
  end.

(** [Math.random()] returns a number in [0, 1). *)
Definition unit_interval (r : Q) : bool := Qle_bool 0 r && negb (Qle_bool 1 r).

Definition event_ok (e : Event) : bool :=
  match e with
  | ClickSpin r1 r2 => unit_interval r1 && unit_interval r2
  | _ => true
  end.

Definition trace_ok (tr : list Event) : bool := forallb event_ok tr.

(** A trace is timely from [s] when no reveal timeout fires while the
    winner is cleared. *)
Fixpoint timely (tr : list Event) (s : State) : bool :=
  match tr with
  | [] => true
  | e :: tr' =>
      match e with
      | RevealTimeout =>
          match winner s with Some _ => true | None => false end
      | _ => true
      end && timely tr' (step e s)
  end.

(** ** Sequential spins *)

Definition increment (d : Q * Q) : Q :=
  inject_Z (fullSpins (fst d)) * 360 + randomAngle (snd d).

(** One spin from the click to the end of its animation. *)
Definition spinRound (d : Q * Q) (s : State) : State :=
  step TransitionEnd (step (ClickSpin (fst d) (snd d)) s).

Fixpoint spins (ds : list (Q * Q)) (s : State) : State :=
  match ds with
  | [] => s
  | d :: ds' => spins ds' (spinRound d s)
  end.

Fixpoint sum_increments (ds : list (Q * Q)) : Q :=
  match ds with
  | [] => 0
  | d :: ds' => increment d + sum_increments ds'
  end.

Definition draws_ok (ds : list (Q * Q)) : bool :=
  forallb (fun d => unit_interval (fst d) && unit_interval (snd d)) ds.

(** A state in which a click on the spin button starts a spin. *)
Definition ready (s : State) : bool :=
  negb (disable s) && match listeners s with [] => true | _ => false end.

(** ** Rendering *)

(** The label and hub geometry computed in the render (lines 131-133 and
    357) and the frame around the wheel (line 288). *)
Definition labelRadius (size : Z) : Z := JS.round (inject_Z size * (38 # 100)).
Definition labelWidth (size : Z) : Z :=
  clamp (JS.round (inject_Z size * (34 # 100))) 105 160.
Definition labelFont (size : Z) : Z :=
  clamp (JS.round (inject_Z size * (48 # 1000))) 14 22.
Definition hubSize (size : Z) : Z :=
  clamp (JS.round (inject_Z size * (19 # 100))) 64 92.
Definition frameSize (size : Z) : Z := (size + 16)%Z.

(** [getColor] (lines 73-80). *)
Definition getColor (s : State) (t : OutcomeType) : string :=
  match t with
  | team1_t => color (team1 s)
  | team2_t => color (team2 s)
  | draw_t => "#1e293b"
  end.

(** [arr.map((o, i) => ..)]: a map that also passes the index. *)
Fixpoint mapi_from {A B} (i : Z) (f : A -> Z -> B) (l : list A) : list B :=
  match l with
  | [] => []
  | x :: r => f x i :: mapi_from (i + 1)%Z f r
  end.

(** The color stops of the [gradient] memo (lines 82-87), before they are
    printed into the [conic-gradient(..)] string: the color of each outcome
    with the two angles of its slice. *)
Definition gradient_stops (s : State) : list (string * Q * Q) :=
  let seg := 360 / inject_Z (Z.of_nat (List.length (outcomes s))) in
  mapi_from 0 (fun o i => (getColor s (type o), inject_Z i * seg,
                           inject_Z (i + 1) * seg)) (outcomes s).

(** The angle at which the label of outcome [i] is placed (line 308). *)
Definition labelAngle (s : State) (i : Z) : Q :=
  let step := 360 / inject_Z (Z.of_nat (List.length (outcomes s))) in
  inject_Z i * step + step / 2.

(** The text of the final pick in the modal (line 432). *)
Definition finalPick (w : Outcome) : string :=
  match type w with
  | draw_t => "DRAW"
  | _ => label w
  end.

(** The color of the final pick box, [getColor(winner.type)] (line 424). *)
Definition winnerColor (s : State) : option string :=
  option_map (fun w => getColor s (type w)) (winner s).

(** An event other than the end of the animation. *)
Definition not_transitionEnd (e : Event) : bool :=
  match e with TransitionEnd => false | _ => true end.

(** The state kept by every event: a spin in progress has its one
    listener, its target is on the wheel and no winner is stored; without
    a spin the wheel shows the stored rotation; the wheel size is within
    its bounds; a stored winner is one of the three outcomes of some pair
    of names. *)
Definition lifecycle_inv (s : State) : Prop :=
  (spinning s = true -> listeners s <> []) /\
  (spinning s = true -> winner s = None) /\
  (320 <= wheelSize s <= 640)%Z /\
  match listeners s with
  | [] => wheelTransform s = rotation s
  | h :: _ => wheelTransform s = h_target h
  end /\
  (forall o, winner s = Some o -> exists n1 n2, In o (outcomes_of n1 n2)).

(** A string made of white space only. *)
Fixpoint all_space (s : string) : bool :=
  match s with
  | EmptyString => true
  | String c r => JS.is_space c && all_space r
  end.

(** ** Invariants of the reachable states *)

(** At most one [handleDone] is registered, only while a spin is in
    progress, and it holds the three outcomes of the render that started
    the spin. *)
Definition wf (s : State) : Prop :=
  match listeners s with
  | [] => True
  | [h] => spinning s = true /\
           exists n1 n2, h_outcomes h = outcomes_of n1 n2
  | _ => False
  end.

(** The registered target is ahead of the stored rotation. *)
Definition ahead (s : State) : Prop :=
  forall h, In h (listeners s) -> rotation s <= h_target h.

(** The reveal flag is set only with a winner. *)
Definition reveal_inv (s : State) : Prop :=
  showResult s = true -> winner s <> None.

(** A name that keeps the spin button disabled: blank after trimming, or
    the placeholder. *)
Definition names_blocked (s : State) : Prop :=
  JS.trim (name (team1 s)) = ""%string \/ name (team1 s) = "Team 1"%string \/
  JS.trim (name (team2 s)) = ""%string \/ name (team2 s) = "Team 2"%string.

Definition names_entered (s : State) : Prop :=
  JS.trim (name (team1 s)) <> ""%string /\
  JS.trim (name (team1 s)) <> "Team 1"%string /\
  JS.trim (name (team2 s)) <> ""%string /\
  JS.trim (name (team2 s)) <> "Team 2"%string.

(** A state with both names entered, used by the examples. *)
Definition named : State :=
  run [EditName1 "Lions"; EditName2 "Tigers"]%string initial.

(** * Properties *)

(** ** Remainder, floor and the angle ranges *)

Lemma frac_floor (q : Q) :
  0 <= q - inject_Z (Qfloor q) /\ q - inject_Z (Qfloor q) < 1.
Proof.
  pose proof (Qfloor_le q) as H1. pose proof (Qlt_floor q) as H2.
  rewrite inject_Z_plus in H2. change (inject_Z 1) with 1 in H2. lra.
Qed.

Lemma frac_ceiling (q : Q) :
  -1 < q - inject_Z (Qceiling q) /\ q - inject_Z (Qceiling q) <= 0.
Proof.
  pose proof (Qle_ceiling q) as H1. pose proof (Qceiling_lt q) as H2.
  unfold Z.sub in H2. rewrite inject_Z_plus in H2.
  change (inject_Z (- (1))%Z) with (- (1)) in H2. lra.
Qed.

(** [Qfloor x = k] exactly when [k <= x < k + 1]. *)
Lemma floor_unique (x : Q) (k : Z) :
  inject_Z k <= x -> x < inject_Z k + 1 -> Qfloor x = k.
Proof.
  intros Hlo Hhi. destruct (frac_floor x) as [F1 F2].
  assert (A : inject_Z (Qfloor x) < inject_Z (k + 1)).
  { rewrite inject_Z_plus. change (inject_Z 1) with 1. lra. }
  assert (B : inject_Z k < inject_Z (Qfloor x + 1)).
  { rewrite inject_Z_plus. change (inject_Z 1) with 1. lra. }
  rewrite <- Zlt_Qlt in A, B. lia.
Qed.

#[export] Instance trunc_proper : Proper (Qeq ==> eq) JS.trunc.
Proof.
  intros x y E. unfold JS.trunc.
  assert (Hb : Qle_bool 0 x = Qle_bool 0 y).
  { apply eq_true_iff_eq. rewrite !Qle_bool_iff, E. reflexivity. }
  rewrite Hb. destruct (Qle_bool 0 y).
  - apply Qfloor_comp, E.
  - apply Qceiling_comp, E.
Qed.

#[export] Instance rem_proper : Proper (Qeq ==> Qeq ==> Qeq) JS.rem.
Proof.
  intros a a' Ea b b' Eb. unfold JS.rem.
  assert (Et : JS.trunc (a / b) = JS.trunc (a' / b')) by (rewrite Ea, Eb; reflexivity).
  rewrite Et, Ea, Eb. reflexivity.
Qed.

Section RemFacts.
Variables a b : Q.
Hypothesis Hb : 0 < b.

Lemma rem_decomp : JS.rem a b == b * (a / b - inject_Z (JS.trunc (a / b))).
Proof. unfold JS.rem. field. intro E. rewrite E in Hb. discriminate. Qed.

Lemma quot_times : a / b * b == a.
Proof. field. intro E. rewrite E in Hb. discriminate. Qed.

Lemma trunc_nonneg : 0 <= a -> JS.trunc (a / b) = Qfloor (a / b).
Proof.
  intro Ha. unfold JS.trunc.
  assert (Hq : Qle_bool 0 (a / b) = true).
  { apply Qle_bool_iff, Qle_shift_div_l; [exact Hb | lra]. }
  now rewrite Hq.
Qed.

Lemma trunc_neg : a < 0 -> JS.trunc (a / b) = Qceiling (a / b).
Proof.
  intro Ha. unfold JS.trunc.
  assert (Hq : Qle_bool 0 (a / b) = false).
  { apply not_true_is_false. intro E. apply Qle_bool_iff in E.
    pose proof quot_times as T. nra. }
  now rewrite Hq.
Qed.

Lemma rem_nonneg : 0 <= a -> 0 <= JS.rem a b /\ JS.rem a b < b.
Proof.
  intro Ha. rewrite rem_decomp, (trunc_nonneg Ha).
  destruct (frac_floor (a / b)) as [H1 H2].
  set (d := a / b - inject_Z (Qfloor (a / b))) in *. clearbody d. nra.
Qed.

Lemma rem_neg : a < 0 -> - b < JS.rem a b /\ JS.rem a b <= 0.
Proof.
  intro Ha. rewrite rem_decomp, (trunc_neg Ha).
  destruct (frac_ceiling (a / b)) as [H1 H2].
  set (d := a / b - inject_Z (Qceiling (a / b))) in *. clearbody d. nra.
Qed.

Lemma rem_bounds : - b < JS.rem a b /\ JS.rem a b < b.
Proof.
  destruct (Qlt_le_dec a 0) as [Ha | Ha].
  - destruct (rem_neg Ha). split; lra.
  - destruct (rem_nonneg Ha). split; lra.
Qed.

(** A dividend already in [0, b) is its own remainder. *)
Lemma rem_small : 0 <= a -> a < b -> JS.rem a b == a.
Proof.
  intros Ha Hlt. unfold JS.rem. rewrite (trunc_nonneg Ha).
  assert (Hk : Qfloor (a / b) = 0%Z).
  { apply floor_unique.
    - apply Qle_shift_div_l; [exact Hb | change (inject_Z 0) with 0; lra].
    - apply Qlt_shift_div_r; [exact Hb | change (inject_Z 0) with 0; lra]. }
  rewrite Hk. change (inject_Z 0) with 0. ring.
Qed.
End RemFacts.

Lemma normalized_range t :
  0 <= normalizedRotation t /\ normalizedRotation t < 360.
Proof.
  unfold normalizedRotation. apply rem_nonneg; [reflexivity |].
  assert (Hb : 0 < 360) by reflexivity.
  destruct (rem_bounds t 360 Hb). lra.
Qed.

Lemma effective_range t : 0 <= effectiveAngle t /\ effectiveAngle t < 360.
Proof.
  unfold effectiveAngle. apply rem_nonneg; [reflexivity |].
  destruct (normalized_range t). lra.
Qed.

(** The quotient by the segment width, before [% segments]. *)
Lemma segment_quotient t :
  (0 <= JS.floor (effectiveAngle t / (360 / inject_Z 3)) < 3)%Z.
Proof.
  destruct (effective_range t) as [H0 H1]. unfold JS.floor.
  set (e := effectiveAngle t) in *. clearbody e.
  assert (Eq : e / (360 / inject_Z 3) == e * (1 # 120)) by (field; discriminate).
  rewrite (Qfloor_comp _ _ Eq).
  destruct (frac_floor (e * (1 # 120))) as [F1 F2].
  set (k := Qfloor (e * (1 # 120))) in *. clearbody k.
  assert (A : inject_Z (-1) < inject_Z k) by (change (inject_Z (-1)) with (- (1)); lra).
  assert (B : inject_Z k < inject_Z 3) by (change (inject_Z 3) with 3; lra).
  rewrite <- Zlt_Qlt in A, B. lia.
Qed.

Lemma winningIndex_floor t :
  winningIndex t = JS.floor (effectiveAngle t / (360 / inject_Z 3)).
Proof.
  unfold winningIndex, winningIndex_of. cbv zeta.
  apply Z.rem_small, segment_quotient.
Qed.

Lemma winningIndex_range t : (0 <= winningIndex t < 3)%Z.
Proof. rewrite winningIndex_floor. apply segment_quotient. Qed.

(** Floor semantics: the effective angle lies in the half-open slice of
    the winning segment. *)
Lemma winning_slice t :
  segment_start (winningIndex t) <= effectiveAngle t /\
  effectiveAngle t < segment_start (winningIndex t + 1).
Proof.
  rewrite winningIndex_floor. unfold JS.floor, segment_start.
  set (e := effectiveAngle t). 
  assert (Eq : e / (360 / inject_Z 3) == e * (1 # 120)) by (field; discriminate).
  rewrite (Qfloor_comp _ _ Eq).
  destruct (frac_floor (e * (1 # 120))) as [F1 F2].
  rewrite inject_Z_plus. change (inject_Z 1) with 1.
  set (k := inject_Z (Qfloor (e * (1 # 120)))) in *. clearbody k e.
  assert (E3 : 360 / 3 == 120) by reflexivity. rewrite E3. lra.
Qed.

Lemma outcomes_length n1 n2 : Z.of_nat (List.length (outcomes_of n1 n2)) = 3%Z.
Proof. reflexivity. Qed.

(** ** The winning segment *)

Lemma winningIndex_meets_spec t : winningIndex t = winningIndex_spec t.
Proof.
  rewrite winningIndex_floor. unfold winningIndex_spec, JS.floor.
  pose proof (segment_quotient t) as R. unfold JS.floor in R.
  assert (Eq : effectiveAngle t / (360 / inject_Z 3) == effectiveAngle t / 120).
  { field. }
  rewrite (Qfloor_comp _ _ Eq) in *.
  unfold effectiveAngle, normalizedRotation in *.
  symmetry. apply Z.mod_small. exact R.
Qed.

(** On a boundary the normalized angle is 0, 120 or 240. *)
Lemma boundary_cases t (k : Z) :
  normalizedRotation t == inject_Z k * 120 -> (k = 0 \/ k = 1 \/ k = 2)%Z.
Proof.
  intro E. destruct (normalized_range t) as [H0 H1]. rewrite E in H0, H1.
  assert (A : inject_Z (-1) < inject_Z k) by (change (inject_Z (-1)) with (- (1)); lra).
  assert (B : inject_Z k < inject_Z 3) by (change (inject_Z 3) with 3; lra).
  rewrite <- Zlt_Qlt in A, B. lia.
Qed.

(** The winner's segment starts at the effective angle when the wheel
    stops on a boundary. *)
Lemma boundary_winner t (k : Z) :
  normalizedRotation t == inject_Z k * 120 ->
  segment_start (winningIndex t) == effectiveAngle t.
Proof.
  intro E.
  assert (Ee : effectiveAngle t == JS.rem (360 - inject_Z k * 120) 360).
  { unfold effectiveAngle. rewrite E. reflexivity. }
  assert (Ew : winningIndex t
               = Qfloor (JS.rem (360 - inject_Z k * 120) 360 / (360 / inject_Z 3))).
  { rewrite winningIndex_floor. unfold JS.floor. apply Qfloor_comp.
    rewrite Ee. reflexivity. }
  rewrite Ew, Ee.
  destruct (boundary_cases t k E) as [-> | [-> | ->]]; vm_compute; reflexivity.
Qed.

(** C1, as amended: for every target rotation the index chosen by
    [handleDone] is the one of the stated formula,
    floor(((360 - ((t % 360) + 360) % 360) % 360) / 120) mod 3, over the
    ordered segments team 1, draw, team 2; the effective angle lies in the
    half-open slice of the winner (floor semantics), so when the normalized
    angle is a multiple of 120 the winner is the segment that starts at the
    effective angle (360 - normalized) % 360; rotations 0, 150 and 2950
    give the indices 0, 1 and 2. *)
Theorem winning_index_formula (t : Q) (n1 n2 : string) (s : State) :
  winningIndex t = winningIndex_spec t /\
  winner (handleDone (mkHandler t (outcomes_of n1 n2)) s)
    = JS.index (outcomes_of n1 n2) (winningIndex t) /\
  map type (outcomes_of n1 n2) = [team1_t; draw_t; team2_t] /\
  (segment_start (winningIndex t) <= effectiveAngle t /\
   effectiveAngle t < segment_start (winningIndex t + 1)) /\
  ((exists k : Z, normalizedRotation t == inject_Z k * 120) ->
   segment_start (winningIndex t) == effectiveAngle t) /\
  winningIndex 0 = 0%Z /\ winningIndex 150 = 1%Z /\ winningIndex 2950 = 2%Z.
Proof.
  split; [apply winningIndex_meets_spec |].
  split; [reflexivity |].
  split; [reflexivity |].
  split; [apply winning_slice |].
  split; [intros [k E]; exact (boundary_winner t k E) |].
  repeat split; vm_compute; reflexivity.
Qed.

Lemma winning_index_formula_witness :
  (exists k : Z, normalizedRotation 2280 == inject_Z k * 120) /\
  segment_start (winningIndex 2280) == effectiveAngle 2280.
Proof.
  assert (B : exists k : Z, normalizedRotation 2280 == inject_Z k * 120)
    by (exists 1%Z; vm_compute; reflexivity).
  split; [exact B |].
  exact (proj1 (proj2 (proj2 (proj2 (proj2
           (winning_index_formula 2280 "Lions" "Tigers" named))))) B).
Defined.

(** C1 as stated fails where it says that the winner is the segment
    starting at the normalized angle: at a rotation of 120 degrees the
    normalized angle is 120, the boundary where the draw segment starts,
    and the winner is segment 2, which starts at 240. *)
Lemma winner_not_at_normalized_angle :
  ~ (forall t : Q,
       (exists k : Z, normalizedRotation t == inject_Z k * 120) ->
       segment_start (winningIndex t) == normalizedRotation t).
Proof.
  intro H. specialize (H 120).
  assert (B : exists k : Z, normalizedRotation 120 == inject_Z k * 120)
    by (exists 1%Z; vm_compute; reflexivity).
  specialize (H B). vm_compute in H. discriminate H.
Qed.

(** ** Wheel geometry *)

Lemma clamp_cases (n lo hi : Z) :
  (lo <= hi)%Z ->
  clamp n lo hi = if (n <? lo)%Z then lo else if (hi <? n)%Z then hi else n.
Proof.
  intro H. unfold clamp, JS.max, JS.min.
  destruct (Z.ltb_spec n lo), (Z.ltb_spec hi n); lia.
Qed.

Lemma clamp_range (n lo hi : Z) :
  (lo <= hi)%Z -> (lo <= clamp n lo hi <= hi)%Z.
Proof. intro H. unfold clamp, JS.max, JS.min. lia. Qed.

(** The frame of a resize report: only the wheel size is written. *)
Lemma onResize_frame entry s :
  team1 (onResize entry s) = team1 s /\ team2 (onResize entry s) = team2 s /\
  spinning (onResize entry s) = spinning s /\
  rotation (onResize entry s) = rotation s /\
  winner (onResize entry s) = winner s /\
  showResult (onResize entry s) = showResult s /\
  wheelTransform (onResize entry s) = wheelTransform s /\
  listeners (onResize entry s) = listeners s /\
  timers (onResize entry s) = timers s.
Proof. repeat split. Qed.

(** C8: for every reported width the stored wheel size is
    clamp(floor(w * 0.98), 320, 640), it lies in [320, 640], and the widths
    10000 and 50 give 640 and 320. *)
Theorem wheel_size_clamped (w : Q) (s : State) :
  let n := JS.floor (w * (98 # 100)) in
  wheelSize (onResize (Some w) s) = clamp n 320 640 /\
  clamp n 320 640
    = (if (n <? 320)%Z then 320 else if (640 <? n)%Z then 640 else n)%Z /\
  (320 <= wheelSize (onResize (Some w) s) <= 640)%Z /\
  wheelSize (onResize (Some 10000) s) = 640%Z /\
  wheelSize (onResize (Some 50) s) = 320%Z /\
  wheelSize (onResize (Some 0) s) = 320%Z.
Proof.
  cbv zeta. split; [reflexivity |].
  split; [apply clamp_cases; lia |].
  split; [apply clamp_range; lia |].
  repeat split.
Qed.

Lemma floor_nonpos (x : Q) : x <= 0 -> (Qfloor x <= 0)%Z.
Proof.
  intro H. pose proof (Qfloor_le x) as F.
  assert (A : inject_Z (Qfloor x) <= inject_Z 0) by (change (inject_Z 0) with 0; lra).
  now rewrite <- Zle_Qle in A.
Qed.




(** ** Starting a spin *)

Lemma unit_interval_spec r : unit_interval r = true -> 0 <= r /\ r < 1.
Proof.
  unfold unit_interval. intro H. apply andb_true_iff in H as [H0 H1].
  apply Qle_bool_iff in H0. split; [exact H0 |].
  apply negb_true_iff in H1. apply Qnot_le_lt. intro L.
  apply Qle_bool_iff in L. congruence.
Qed.

Lemma fullSpins_range r : 0 <= r -> r < 1 -> (6 <= fullSpins r <= 8)%Z.
Proof.
  intros H0 H1. unfold fullSpins, JS.floor.
  destruct (frac_floor (r * 3)) as [F1 F2].
  set (k := Qfloor (r * 3)) in *. clearbody k.
  assert (A : inject_Z (-1) < inject_Z k) by (change (inject_Z (-1)) with (- (1)); lra).
  assert (B : inject_Z k < inject_Z 3) by (change (inject_Z 3) with 3; lra).
  rewrite <- Zlt_Qlt in A, B. lia.
Qed.

Lemma randomAngle_range r : 0 <= r -> r < 1 -> 0 <= randomAngle r /\ randomAngle r < 360.
Proof. intros H0 H1. unfold randomAngle. split; lra. Qed.

Lemma increment_range d :
  unit_interval (fst d) = true -> unit_interval (snd d) = true ->
  2160 <= increment d /\ increment d < 3240.
Proof.
  intros H1 H2. apply unit_interval_spec in H1 as [A1 A2], H2 as [B1 B2].
  unfold increment. destruct (randomAngle_range _ B1 B2) as [R1 R2].
  pose proof (fullSpins_range _ A1 A2) as [F1 F2].
  rewrite Zle_Qle in F1, F2. change (inject_Z 6) with 6 in F1.
  change (inject_Z 8) with 8 in F2. split; lra.
Qed.

Lemma targetRotation_increment c r1 r2 :
  targetRotation c r1 r2 == c + increment (r1, r2).
Proof. unfold targetRotation, increment. cbn. ring. Qed.

Lemma spin_started r1 r2 s :
  spinning s = false ->
  spin r1 r2 s
  = setListeners
      (listeners s ++ [mkHandler (targetRotation (rotation s) r1 r2) (outcomes s)])
      (setWheelTransform (targetRotation (rotation s) r1 r2)
        (setShowResult false (setWinner None (setSpinning true s)))).
Proof. intro Hs. unfold spin. now rewrite Hs. Qed.



(** ** Rejected spin requests *)

(** C5: while a spin is in progress a further spin request changes
    nothing: [spin] returns the state as it is, and so does a click on the
    spin button. *)
Theorem spin_while_spinning_ignored (r1 r2 : Q) (s : State) :
  spinning s = true ->
  spin r1 r2 s = s /\ step (ClickSpin r1 r2) s = s.
Proof.
  intro Hs. assert (E : spin r1 r2 s = s) by (unfold spin; now rewrite Hs).
  split; [exact E |]. cbn. now destruct (disable s).
Qed.

Lemma spin_while_spinning_ignored_witness :
  spinning (step (ClickSpin 0 0) named) = true /\
  spin (1 # 2) (1 # 3) (step (ClickSpin 0 0) named) = step (ClickSpin 0 0) named.
Proof.
  assert (H : spinning (step (ClickSpin 0 0) named) = true) by reflexivity.
  split; [exact H |].
  exact (proj1 (spin_while_spinning_ignored (1 # 2) (1 # 3) _ H)).
Defined.

Lemma disable_false_iff s :
  disable s = false <-> spinning s = false /\ names_entered s.
Proof.
  unfold disable, names_entered. rewrite !orb_false_iff, !String.eqb_neq.
  tauto.
Qed.

Lemma names_blocked_disable s : names_blocked s -> disable s = true.
Proof.
  intro B. destruct (disable s) eqn:D; [reflexivity | exfalso].
  apply disable_false_iff in D as [_ (A1 & A2 & A3 & A4)].
  destruct B as [B | [B | [B | B]]]; try contradiction.
  - apply A2. now rewrite B.
  - apply A4. now rewrite B.
Qed.

(** [spin] itself tests nothing but [spinning]; the names are tested by
    the [disabled] attribute of the button, its only caller. *)
Lemma spin_checks_only_spinning r1 r2 s :
  spinning s = false -> spinning (spin r1 r2 s) = true.
Proof. intro Hs. now rewrite (spin_started r1 r2 s Hs). Qed.

(** C6: the spin button is enabled exactly when no spin is in progress and
    both trimmed names are non-empty and differ from their placeholders;
    with a blank name or an unmodified placeholder the button is disabled
    and a spin request changes no part of the state, whatever the random
    draws. *)
Theorem spin_blocked_without_names (r1 r2 : Q) (s : State) :
  (disable s = false <-> spinning s = false /\ names_entered s) /\
  (names_blocked s -> disable s = true /\ step (ClickSpin r1 r2) s = s).
Proof.
  split; [apply disable_false_iff |].
  intro B. pose proof (names_blocked_disable s B) as D.
  split; [exact D |]. cbn. now rewrite D.
Qed.

Lemma spin_blocked_without_names_witness :
  names_blocked initial /\ step (ClickSpin (1 # 2) (1 # 3)) initial = initial.
Proof.
  assert (B : names_blocked initial) by (right; left; reflexivity).
  split; [exact B |].
  exact (proj2 (proj2 (spin_blocked_without_names (1 # 2) (1 # 3) initial) B)).
Defined.

(** ** Dismissing the result *)



(** ** Invariants along the events *)

Lemma wf_initial : wf initial.
Proof. exact I. Qed.

Lemma wf_not_spinning s : wf s -> spinning s = false -> listeners s = [].
Proof.
  unfold wf. destruct (listeners s) as [| h [| h' l]]; intros W Hs.
  - reflexivity.
  - destruct W as [W _]. congruence.
  - contradiction.
Qed.

(** What a [transitionend] does in a well-formed state. *)
Lemma transitionEnd_cases s :
  wf s ->
  (listeners s = [] /\ transitionEnd s = setListeners [] s) \/
  (exists h n1 n2,
      listeners s = [h] /\ spinning s = true /\
      h_outcomes h = outcomes_of n1 n2 /\
      transitionEnd s = handleDone h (setListeners [] s)).
Proof.
  unfold wf, transitionEnd.
  destruct (listeners s) as [| h [| h' l]]; intro W.
  - left. split; reflexivity.
  - right. destruct W as [Hs (n1 & n2 & Ho)]. exists h, n1, n2. repeat split; assumption.
  - contradiction.
Qed.

Lemma winner_lookup t n1 n2 :
  exists o, JS.index (outcomes_of n1 n2) (winningIndex t) = Some o.
Proof.
  pose proof (winningIndex_range t) as R.
  assert (C : (winningIndex t = 0 \/ winningIndex t = 1 \/ winningIndex t = 2)%Z) by lia.
  destruct C as [-> | [-> | ->]]; eexists; reflexivity.
Qed.

Lemma handleDone_winner t n1 n2 s :
  winner (handleDone (mkHandler t (outcomes_of n1 n2)) s) <> None.
Proof.
  destruct (winner_lookup t n1 n2) as [o Ho].
  change (winner (handleDone (mkHandler t (outcomes_of n1 n2)) s))
    with (JS.index (outcomes_of n1 n2) (winningIndex t)).
  rewrite Ho. discriminate.
Qed.

Lemma step_wf e s : wf s -> wf (step e s).
Proof.
  intro W. destruct e; cbn; try exact W.
  - destruct (disable s) eqn:D; [exact W |].
    apply disable_false_iff in D as [Hs _].
    rewrite (spin_started r1 r2 s Hs). unfold wf. cbn.
    rewrite (wf_not_spinning s W Hs). cbn.
    split; [reflexivity |]. eexists _, _. reflexivity.
  - destruct (transitionEnd_cases s W) as [[_ E] | (h & n1 & n2 & _ & _ & _ & E)];
      rewrite E; exact I.
  - unfold revealTimeout. destruct (timers s); exact W.
  - destruct (modalShown s); exact W.
  - destruct (modalShown s); exact W.
Qed.

Lemma step_ahead e s : wf s -> ahead s -> event_ok e = true -> ahead (step e s).
Proof.
  intros W A Ok. destruct e; cbn; try exact A.
  - destruct (disable s) eqn:D; [exact A |].
    apply disable_false_iff in D as [Hs _].
    rewrite (spin_started r1 r2 s Hs). unfold ahead. cbn.
    rewrite (wf_not_spinning s W Hs). cbn. intros h [<- | []]. cbn.
    cbn in Ok. apply andb_true_iff in Ok as [O1 O2].
    pose proof (increment_range (r1, r2) O1 O2) as [I1 _].
    rewrite targetRotation_increment. lra.
  - destruct (transitionEnd_cases s W) as [[_ E] | (h & n1 & n2 & _ & _ & _ & E)];
      rewrite E; intros h' [].
  - unfold revealTimeout. destruct (timers s); exact A.
  - destruct (modalShown s); exact A.
  - destruct (modalShown s); exact A.
Qed.

(** No event lowers the stored rotation. *)
Lemma step_monotone e s :
  wf s -> ahead s -> rotation s <= rotation (step e s).
Proof.
  intros W A. destruct e; cbn; try apply Qle_refl.
  - destruct (disable s) eqn:D; [apply Qle_refl |].
    apply disable_false_iff in D as [Hs _].
    rewrite (spin_started r1 r2 s Hs). apply Qle_refl.
  - destruct (transitionEnd_cases s W) as [[_ E] | (h & n1 & n2 & L & _ & _ & E)];
      rewrite E; [apply Qle_refl |].
    cbn. apply A. rewrite L. left. reflexivity.
  - unfold revealTimeout. destruct (timers s); apply Qle_refl.
  - destruct (modalShown s); apply Qle_refl.
  - destruct (modalShown s); apply Qle_refl.
Qed.

Lemma run_wf_ahead tr : forall s,
  wf s -> ahead s -> trace_ok tr = true -> wf (run tr s) /\ ahead (run tr s).
Proof.
  induction tr as [| e tr IH]; intros s W A Ok; cbn.
  - split; assumption.
  - cbn in Ok. apply andb_true_iff in Ok as [Oe Ot].
    apply IH; [apply step_wf | apply step_ahead | ]; assumption.
Qed.

Lemma run_monotone tr : forall s,
  wf s -> ahead s -> trace_ok tr = true -> rotation s <= rotation (run tr s).
Proof.
  induction tr as [| e tr IH]; intros s W A Ok; cbn.
  - apply Qle_refl.
  - cbn in Ok. apply andb_true_iff in Ok as [Oe Ot].
    apply Qle_trans with (rotation (step e s)).
    + apply step_monotone; assumption.
    + apply IH; [apply step_wf | apply step_ahead | ]; assumption.
Qed.

Lemma ahead_initial : ahead initial.
Proof. intros h []. Qed.

(** The end of an animation in a well-formed state with a spin in flight
    stores one of the three outcomes captured by that spin. *)
Lemma resolution_winner s :
  wf s -> listeners s <> [] ->
  exists h n1 n2 o,
    listeners s = [h] /\ h_outcomes h = outcomes_of n1 n2 /\
    JS.index (outcomes_of n1 n2) (winningIndex (h_target h)) = Some o /\
    winner (transitionEnd s) = Some o.
Proof.
  intros W N.
  destruct (transitionEnd_cases s W) as [[L _] | (h & n1 & n2 & L & _ & Ho & E)];
    [contradiction |].
  destruct (winner_lookup (h_target h) n1 n2) as [o Io].
  exists h, n1, n2, o. repeat split; try assumption.
  rewrite E. destruct h as [t outs]. cbn in Ho. subst outs. exact Io.
Qed.

Lemma run_wf tr : forall s, wf s -> wf (run tr s).
Proof.
  induction tr as [| e tr IH]; intros s W; cbn; [exact W |].
  apply IH, step_wf, W.
Qed.

(** C2: for every target rotation the winning index is 0, 1 or 2, so the
    lookup in the three outcomes succeeds and the winner stored by
    [handleDone] is one of the three segments, never absent; in every state
    reached from the initial one with a spin in flight, the end of the
    animation stores such a winner. *)
Theorem winner_in_bounds (t : Q) (n1 n2 : string) (s : State) (tr : list Event) :
  (winningIndex t = 0 \/ winningIndex t = 1 \/ winningIndex t = 2)%Z /\
  (exists o : Outcome,
    JS.index (outcomes_of n1 n2) (winningIndex t) = Some o /\
    winner (handleDone (mkHandler t (outcomes_of n1 n2)) s) = Some o /\
    (o = mkOutcome n1 team1_t \/ o = mkOutcome "DRAW" draw_t \/
     o = mkOutcome n2 team2_t)) /\
  (listeners (run tr initial) <> [] ->
   exists o : Outcome,
     winner (step TransitionEnd (run tr initial)) = Some o /\
     (type o = team1_t \/ type o = draw_t \/ type o = team2_t)).
Proof.
  pose proof (winningIndex_range t) as R.
  assert (C : (winningIndex t = 0 \/ winningIndex t = 1 \/ winningIndex t = 2)%Z) by lia.
  split; [exact C |]. split.
  - assert (W : winner (handleDone (mkHandler t (outcomes_of n1 n2)) s)
                = JS.index (outcomes_of n1 n2) (winningIndex t)) by reflexivity.
    rewrite W.
    destruct C as [-> | [-> | ->]]; eexists; (split; [reflexivity |]);
      (split; [reflexivity |]); auto.
  - intro N.
    destruct (resolution_winner _ (run_wf tr initial wf_initial) N)
      as (h & m1 & m2 & o & _ & _ & Io & Wo).
    exists o. split; [exact Wo |].
    pose proof (winningIndex_range (h_target h)) as R'.
    assert (C' : (winningIndex (h_target h) = 0 \/ winningIndex (h_target h) = 1
                  \/ winningIndex (h_target h) = 2)%Z) by lia.
    destruct C' as [E | [E | E]]; rewrite E in Io; cbn in Io;
      injection Io as <-; cbn; auto.
Qed.

Lemma winner_in_bounds_witness :
  let tr := [EditName1 "Lions"; EditName2 "Tigers"; ClickSpin 0 (1 # 2)]%string in
  listeners (run tr initial) <> [] /\
  exists o : Outcome,
    winner (step TransitionEnd (run tr initial)) = Some o /\
    (type o = team1_t \/ type o = draw_t \/ type o = team2_t).
Proof.
  cbv zeta.
  assert (N : listeners (run [EditName1 "Lions"; EditName2 "Tigers";
                              ClickSpin 0 (1 # 2)]%string initial) <> [])
    by (vm_compute; discriminate).
  split; [exact N |].
  exact (proj2 (proj2 (winner_in_bounds 0 "Lions" "Tigers" initial _)) N).
Defined.

(** ** The cumulative rotation *)

Lemma ready_spec s :
  ready s = true <-> disable s = false /\ listeners s = [].
Proof.
  unfold ready. rewrite andb_true_iff, negb_true_iff.
  destruct (listeners s); intuition congruence.
Qed.

(** One spin from a ready state: the click registers the target and the
    end of the animation stores it. *)
Lemma spinRound_ready d s :
  ready s = true ->
  rotation (spinRound d s) = targetRotation (rotation s) (fst d) (snd d) /\
  wheelTransform (spinRound d s) = targetRotation (rotation s) (fst d) (snd d) /\
  ready (spinRound d s) = true.
Proof.
  intro R. apply ready_spec in R as [D L].
  pose proof D as D'. apply disable_false_iff in D' as [Hs Hn].
  unfold spinRound. cbn [step]. rewrite D, (spin_started _ _ s Hs), L.
  split; [reflexivity |]. split; [reflexivity |].
  apply ready_spec. split; [| reflexivity].
  apply disable_false_iff. split; [reflexivity | exact Hn].
Qed.

Lemma spins_app ds1 : forall ds2 s,
  spins (ds1 ++ ds2) s = spins ds2 (spins ds1 s).
Proof.
  induction ds1 as [| d ds1 IH]; intros ds2 s; cbn; [reflexivity | apply IH].
Qed.

Lemma sum_increments_app ds1 ds2 :
  sum_increments (ds1 ++ ds2) == sum_increments ds1 + sum_increments ds2.
Proof.
  induction ds1 as [| d ds1 IH]; cbn; [ring | rewrite IH; ring].
Qed.

Lemma spins_rotation ds : forall s,
  ready s = true ->
  ready (spins ds s) = true /\
  rotation (spins ds s) == rotation s + sum_increments ds.
Proof.
  induction ds as [| d ds IH]; intros s R; cbn.
  - split; [exact R | ring].
  - destruct (spinRound_ready d s R) as (E & _ & R').
    destruct (IH _ R') as [R'' S]. split; [exact R'' |].
    rewrite S, E, targetRotation_increment. destruct d; cbn. ring.
Qed.



(** ** The reveal flag and the winner *)

Lemma reveal_inv_initial : reveal_inv initial.
Proof. intro H. discriminate H. Qed.

(** Every event keeps the reveal invariant, a reveal timeout provided the
    winner is still set when it fires. *)
Lemma step_reveal_inv e s :
  wf s -> reveal_inv s ->
  (e = RevealTimeout -> winner s <> None) ->
  reveal_inv (step e s).
Proof.
  intros W V T. destruct e; cbn; try exact V.
  - destruct (disable s) eqn:D; [exact V |].
    apply disable_false_iff in D as [Hs _].
    rewrite (spin_started r1 r2 s Hs). intro H. discriminate H.
  - destruct (transitionEnd_cases s W) as [[_ E] | (h & n1 & n2 & _ & _ & Ho & E)];
      rewrite E; [exact V |].
    intros _. destruct h as [t outs]. cbn in Ho. subst outs.
    apply handleDone_winner.
  - unfold revealTimeout. destruct (timers s); [exact V |].
    intros _. exact (T eq_refl).
  - destruct (modalShown s); [| exact V]. intro H. discriminate H.
  - destruct (modalShown s); [| exact V]. intro H. discriminate H.
Qed.

Lemma timely_reveal_inv tr : forall s,
  wf s -> reveal_inv s -> timely tr s = true -> reveal_inv (run tr s).
Proof.
  induction tr as [| e tr IH]; intros s W V T; cbn.
  - exact V.
  - cbn in T. apply andb_true_iff in T as [Te Tt].
    apply IH; [apply step_wf, W | | exact Tt].
    apply step_reveal_inv; [exact W | exact V |].
    intros ->. destruct (winner s); [discriminate | discriminate Te].
Qed.

(** C10, as amended: the result modal is rendered only with a winner, in
    every state; starting a spin clears the winner and the reveal flag
    together, the end of the animation stores a winner, every dismiss path
    clears the reveal flag and [reset] clears both; the reveal flag implies
    a winner in every state reached from the initial one by events among
    which no reveal timeout fires while the winner is cleared. *)
Theorem reveal_requires_winner
    (tr : list Event) (s : State) (r1 r2 t : Q) (n1 n2 : string) :
  timely tr initial = true ->
  (showResult (run tr initial) = true -> winner (run tr initial) <> None) /\
  (modalShown s = true -> winner s <> None) /\
  (spinning s = false ->
   winner (spin r1 r2 s) = None /\ showResult (spin r1 r2 s) = false) /\
  winner (handleDone (mkHandler t (outcomes_of n1 n2)) s) <> None /\
  showResult (handleDone (mkHandler t (outcomes_of n1 n2)) s) = showResult s /\
  showResult (closeResult s) = false /\
  showResult (spinAgain s) = false /\ winner (spinAgain s) = None /\
  showResult (reset s) = false /\ winner (reset s) = None.
Proof.
  intro T.
  split; [exact (timely_reveal_inv tr initial wf_initial reveal_inv_initial T) |].
  split.
  { unfold modalShown. intro M. apply andb_true_iff in M as [_ M].
    destruct (winner s); [discriminate | discriminate M]. }
  split.
  { intro Hs. rewrite (spin_started r1 r2 s Hs). split; reflexivity. }
  split; [apply handleDone_winner |].
  repeat split.
Qed.

Lemma reveal_requires_winner_witness :
  let tr := [EditName1 "Lions"; EditName2 "Tigers"; ClickSpin 0 0;
             TransitionEnd; RevealTimeout; ClickSpin 0 0]%string in
  timely tr initial = true /\
  (showResult (run tr initial) = true -> winner (run tr initial) <> None).
Proof.
  cbv zeta. split; [reflexivity |].
  refine (proj1 (reveal_requires_winner _ initial 0 0 0 "" "" _)). reflexivity.
Defined.

(** C10 as stated fails: with both names entered, a spin that is started
    after the previous animation has ended and before its reveal timeout
    has fired clears the winner, and the timeout then sets the reveal flag
    without a winner. *)
Lemma reveal_without_winner :
  ~ (forall tr : list Event,
       trace_ok tr = true ->
       showResult (run tr initial) = true -> winner (run tr initial) <> None).
Proof.
  intro H.
  apply (H [EditName1 "Lions"; EditName2 "Tigers"; ClickSpin 0 0;
            TransitionEnd; ClickSpin 0 0; RevealTimeout]%string);
    reflexivity.
Qed.

(** * Further properties *)

(** ** The normalized angle is the rotation modulo a full turn *)

Lemma normalized_congruent t :
  exists k : Z, normalizedRotation t == t - 360 * inject_Z k.
Proof.
  exists (JS.trunc (t / 360)
          + JS.trunc ((JS.rem t 360 + 360) / 360) - 1)%Z.
  unfold normalizedRotation, Z.sub. rewrite !inject_Z_plus.
  change (inject_Z (- (1))) with (- (1)).
  unfold JS.rem at 1. set (k2 := inject_Z (JS.trunc ((JS.rem t 360 + 360) / 360))).
  unfold JS.rem. ring.
Qed.

(** Two angles of [0, 360) that differ by whole turns are equal. *)
Lemma turn_unique (y y' : Q) (k : Z) :
  0 <= y -> y < 360 -> 0 <= y' -> y' < 360 ->
  y == y' + 360 * inject_Z k -> y == y'.
Proof.
  intros H1 H2 H3 H4 E.
  assert (A : inject_Z (-1) < inject_Z k) by (change (inject_Z (-1)) with (- (1)); lra).
  assert (B : inject_Z k < inject_Z 1) by (change (inject_Z 1) with 1; lra).
  rewrite <- Zlt_Qlt in A, B. assert (K : k = 0%Z) by lia. subst k.
  rewrite E. change (inject_Z 0) with 0. ring.
Qed.



Lemma normalized_periodic t (k : Z) :
  normalizedRotation (t + 360 * inject_Z k) == normalizedRotation t.
Proof.
  destruct (normalized_congruent t) as [k1 E1].
  destruct (normalized_congruent (t + 360 * inject_Z k)) as [k2 E2].
  destruct (normalized_range t), (normalized_range (t + 360 * inject_Z k)).
  apply (turn_unique _ _ (k - k2 + k1)); try assumption.
  unfold Z.sub. rewrite E2, E1, !inject_Z_plus, inject_Z_opp. ring.
Qed.

#[export] Instance normalized_proper : Proper (Qeq ==> Qeq) normalizedRotation.
Proof. intros x y E. unfold normalizedRotation. now rewrite E. Qed.

#[export] Instance effective_proper : Proper (Qeq ==> Qeq) effectiveAngle.
Proof. intros x y E. unfold effectiveAngle. now rewrite E. Qed.

Lemma winningIndex_of_normalized t t' :
  normalizedRotation t == normalizedRotation t' -> winningIndex t = winningIndex t'.
Proof.
  intro E. unfold winningIndex, winningIndex_of, JS.floor. cbv zeta.
  assert (Ee : effectiveAngle t == effectiveAngle t').
  { unfold effectiveAngle. now rewrite E. }
  f_equal. apply Qfloor_comp. now rewrite Ee.
Qed.


(** The effective angle in terms of the normalized one. *)
Lemma effective_of_normalized t :
  (normalizedRotation t == 0 -> effectiveAngle t == 0) /\
  (0 < normalizedRotation t -> effectiveAngle t == 360 - normalizedRotation t).
Proof.
  destruct (normalized_range t) as [H0 H1]. unfold effectiveAngle. split.
  - intro E. rewrite E. vm_compute. reflexivity.
  - intro P. apply rem_small; [reflexivity | lra | lra].
Qed.

Lemma segment_starts :
  segment_start 0 == 0 /\ segment_start 1 == 120 /\
  segment_start 2 == 240 /\ segment_start 3 == 360.
Proof. repeat split. Qed.

(** X2: which segment wins, by the normalized angle [n] of the final
    rotation: team 1 (index 0) when [n = 0] or [240 < n], the draw
    (index 1) when [120 < n <= 240], team 2 (index 2) when
    [0 < n <= 120]. *)
Theorem winner_by_normalized_angle (t : Q) :
  let n := normalizedRotation t in
  (winningIndex t = 0%Z <-> n == 0 \/ 240 < n) /\
  (winningIndex t = 1%Z <-> 120 < n /\ n <= 240) /\
  (winningIndex t = 2%Z <-> 0 < n /\ n <= 120).
Proof.
  cbv zeta.
  destruct (normalized_range t) as [H0 H1].
  destruct (effective_of_normalized t) as [Ez Ep].
  destruct (winning_slice t) as [S1 S2].
  pose proof (winningIndex_range t) as R.
  destruct segment_starts as (G0 & G1 & G2 & G3).
  assert (C : (winningIndex t = 0 \/ winningIndex t = 1 \/ winningIndex t = 2)%Z) by lia.
  destruct (Qlt_le_dec 0 (normalizedRotation t)) as [P | P].
  - specialize (Ep P). rewrite Ep in S1, S2.
    destruct C as [E | [E | E]]; rewrite E in *; cbn [Z.add Pos.add Pos.succ] in S2;
      rewrite ?G0, ?G1, ?G2, ?G3 in S1, S2;
      repeat split; intros; try lia; try lra;
      try (match goal with H : _ \/ _ |- _ => destruct H end; lra);
      try (right; lra).
  - assert (Z0 : normalizedRotation t == 0) by lra.
    specialize (Ez Z0). rewrite Ez in S1, S2.
    destruct C as [E | [E | E]]; rewrite E in *; cbn [Z.add Pos.add Pos.succ] in S2;
      rewrite ?G0, ?G1, ?G2, ?G3 in S1, S2;
      repeat split; intros; try lia; try lra; try (left; exact Z0).
Qed.

(** ** The life cycle of a spin *)

Lemma lifecycle_initial : lifecycle_inv initial.
Proof.
  unfold lifecycle_inv. cbn.
  refine (conj _ (conj _ (conj _ (conj _ _)))); try discriminate; try lia.
  reflexivity.
Qed.

Lemma index_in_outcomes n1 n2 i o :
  JS.index (outcomes_of n1 n2) i = Some o -> In o (outcomes_of n1 n2).
Proof.
  unfold JS.index. destruct (i <? 0)%Z; [discriminate |].
  intro H. eapply nth_error_In, H.
Qed.

Ltac split_lifecycle :=
  unfold lifecycle_inv; refine (conj _ (conj _ (conj _ (conj _ _)))).

Lemma step_lifecycle e s : wf s -> lifecycle_inv s -> lifecycle_inv (step e s).
Proof.
  intros W (L1 & L2 & L3 & L4 & L5).
  destruct e; cbn [step].
  - split_lifecycle; assumption.
  - split_lifecycle; assumption.
  - split_lifecycle; assumption.
  - split_lifecycle; assumption.
  - destruct (disable s) eqn:D; [split_lifecycle; assumption |].
    apply disable_false_iff in D as [Hs _].
    rewrite (spin_started r1 r2 s Hs). split_lifecycle; cbn;
      rewrite ?(wf_not_spinning s W Hs); cbn;
      try assumption; try reflexivity; try discriminate.
  - destruct (transitionEnd_cases s W) as [[L E] | (h & n1 & n2 & L & Hs & Ho & E)];
      rewrite E; rewrite L in L4.
    + split_lifecycle; cbn; try assumption.
      intro Hs. elim (L1 Hs L).
    + split_lifecycle; cbn; try assumption; try discriminate.
      intros o Io. exists n1, n2. rewrite Ho in Io.
      apply (index_in_outcomes _ _ _ _ Io).
  - unfold revealTimeout. destruct (timers s); split_lifecycle; assumption.
  - destruct (modalShown s); split_lifecycle; assumption.
  - destruct (modalShown s); [| split_lifecycle; assumption].
    split_lifecycle; cbn; try assumption; try (intros; reflexivity); discriminate.
  - split_lifecycle; cbn; try assumption. apply clamp_range; lia.
Qed.

Lemma run_lifecycle tr : forall s,
  wf s -> lifecycle_inv s -> wf (run tr s) /\ lifecycle_inv (run tr s).
Proof.
  induction tr as [| e tr IH]; intros s W L; cbn; [split; assumption |].
  apply IH; [apply step_wf, W | apply step_lifecycle; assumption].
Qed.

Lemma reachable_inv tr :
  wf (run tr initial) /\ lifecycle_inv (run tr initial).
Proof. apply run_lifecycle; [exact wf_initial | exact lifecycle_initial]. Qed.

(** X4: a spin is in progress exactly while its one [handleDone] is
    registered on the wheel; the end of the animation always ends the
    spin and leaves no listener, and a second [transitionend] changes
    nothing. *)
Theorem spinning_iff_listener (tr : list Event) :
  let s := run tr initial in
  (spinning s = true <-> listeners s <> []) /\
  (List.length (listeners s) <= 1)%nat /\
  spinning (step TransitionEnd s) = false /\
  listeners (step TransitionEnd s) = [] /\
  step TransitionEnd (step TransitionEnd s) = step TransitionEnd s.
Proof.
  cbv zeta. destruct (reachable_inv tr) as [W (L1 & L2 & L3 & L4 & L5)].
  set (s := run tr initial) in *. clearbody s.
  assert (Len : (List.length (listeners s) <= 1)%nat).
  { unfold wf in W. destruct (listeners s) as [| h [| h' l]]; cbn; try lia; contradiction. }
  split.
  { split; [exact L1 |]. intro N.
    destruct (spinning s) eqn:Hs; [reflexivity |].
    elim N. apply (wf_not_spinning s W Hs). }
  split; [exact Len |]. cbn [step].
  destruct (transitionEnd_cases s W) as [[L E] | (h & n1 & n2 & L & Hs & Ho & E)];
    rewrite E.
  - assert (Hs : spinning s = false).
    { destruct (spinning s) eqn:Hs; [elim (L1 eq_refl L) | reflexivity]. }
    repeat split; assumption.
  - repeat split.
Qed.

(** X5: while a spin is in progress no winner is stored, so the result
    modal is never rendered during a spin, in any reachable state. *)
Theorem no_modal_while_spinning (tr : list Event) :
  let s := run tr initial in
  spinning s = true -> winner s = None /\ modalShown s = false.
Proof.
  cbv zeta. destruct (reachable_inv tr) as [_ (_ & L2 & _)].
  intro Hs. specialize (L2 Hs). split; [exact L2 |].
  unfold modalShown. rewrite L2. apply andb_false_r.
Qed.

Lemma no_modal_while_spinning_witness :
  let tr := [EditName1 "Lions"; EditName2 "Tigers"; ClickSpin 0 0; TransitionEnd;
             ClickSpin 0 0; RevealTimeout]%string in
  spinning (run tr initial) = true /\ showResult (run tr initial) = true /\
  modalShown (run tr initial) = false.
Proof.
  cbv zeta. split; [reflexivity |]. split; [reflexivity |].
  refine (proj2 (no_modal_while_spinning _ _)). reflexivity.
Defined.

(** X6: in every reachable state the wheel size lies in [320, 640], and
    the wheel is styled with the stored rotation when no spin is in
    progress and with the target of the spin while one is. *)
Theorem wheel_style_consistent (tr : list Event) :
  let s := run tr initial in
  (320 <= wheelSize s <= 640)%Z /\
  (spinning s = false -> wheelTransform s = rotation s) /\
  (spinning s = true ->
   exists h, listeners s = [h] /\ wheelTransform s = h_target h).
Proof.
  cbv zeta. destruct (reachable_inv tr) as [W (L1 & _ & L3 & L4 & _)].
  set (s := run tr initial) in *. clearbody s.
  split; [exact L3 |]. split.
  - intro Hs. rewrite (wf_not_spinning s W Hs) in L4. exact L4.
  - intro Hs. specialize (L1 Hs). unfold wf in W.
    destruct (listeners s) as [| h [| h' l]]; [contradiction | | contradiction].
    exists h. split; [reflexivity | exact L4].
Qed.

Lemma wheel_style_consistent_witness :
  let tr := [Resize (Some 5000); EditName1 "Lions"; EditName2 "Tigers";
             ClickSpin (1 # 2) (1 # 4); TransitionEnd]%string in
  spinning (run tr initial) = false /\
  wheelTransform (run tr initial) = rotation (run tr initial).
Proof.
  cbv zeta. split; [reflexivity |].
  refine (proj1 (proj2 (wheel_style_consistent _)) _). reflexivity.
Defined.

(** ** A spin is decided by the click *)

Lemma in_flight_step e s h :
  not_transitionEnd e = true ->
  spinning s = true -> listeners s = [h] ->
  spinning (step e s) = true /\ listeners (step e s) = [h].
Proof.
  intros N Hs L. destruct e; cbn [step]; try discriminate N;
    try (split; assumption).
  - assert (D : disable s = true) by (unfold disable; now rewrite Hs).
    rewrite D. split; assumption.
  - unfold revealTimeout. destruct (timers s); split; assumption.
  - destruct (modalShown s); split; assumption.
  - destruct (modalShown s); split; assumption.
Qed.

Lemma in_flight_run es : forall s h,
  forallb not_transitionEnd es = true ->
  spinning s = true -> listeners s = [h] ->
  spinning (run es s) = true /\ listeners (run es s) = [h].
Proof.
  induction es as [| e es IH]; intros s h N Hs L; cbn.
  - split; assumption.
  - cbn in N. apply andb_true_iff in N as [Ne Nes].
    destruct (in_flight_step e s h Ne Hs L) as [Hs' L'].
    apply IH; assumption.
Qed.

Lemma transitionEnd_single s h :
  listeners s = [h] -> transitionEnd s = handleDone h (setListeners [] s).
Proof. intro L. unfold transitionEnd. now rewrite L. Qed.

Lemma handleDone_fields t n1 n2 s :
  rotation (handleDone (mkHandler t (outcomes_of n1 n2)) s) = t /\
  winner (handleDone (mkHandler t (outcomes_of n1 n2)) s)
    = JS.index (outcomes_of n1 n2) (winningIndex t) /\
  spinning (handleDone (mkHandler t (outcomes_of n1 n2)) s) = false.
Proof.
  unfold handleDone. cbn [h_outcomes h_target]. rewrite outcomes_length.
  unfold winningIndex.
  cbv beta iota zeta
      delta [rotation winner spinning setTimers setSpinning setWinner setRotation].
  repeat split.
Qed.

(** X7: once a spin has started, nothing that happens before the end of
    its animation changes its result: whatever names, colors or sizes are
    edited and whatever is clicked meanwhile, the spin stays in progress,
    and the end of the animation stores the target computed at the click
    and the outcome, with the label the name had at the click, that the
    target selects. *)
Theorem spin_result_fixed_at_click (s : State) (r1 r2 : Q) (es : list Event) :
  ready s = true -> forallb not_transitionEnd es = true ->
  let target := targetRotation (rotation s) r1 r2 in
  let mid := run es (step (ClickSpin r1 r2) s) in
  spinning mid = true /\
  rotation (step TransitionEnd mid) = target /\
  winner (step TransitionEnd mid)
    = JS.index (outcomes s) (winningIndex target) /\
  spinning (step TransitionEnd mid) = false.
Proof.
  intros R N. cbv zeta. apply ready_spec in R as [D L].
  pose proof D as D'. apply disable_false_iff in D' as [Hs _].
  set (h := mkHandler (targetRotation (rotation s) r1 r2) (outcomes s)).
  assert (S0 : spinning (step (ClickSpin r1 r2) s) = true
               /\ listeners (step (ClickSpin r1 r2) s) = [h]).
  { cbn [step]. rewrite D, (spin_started _ _ s Hs). cbn. rewrite L. split; reflexivity. }
  destruct S0 as [Hs0 L0].
  destruct (in_flight_run es _ h N Hs0 L0) as [Hs1 L1].
  set (mid := run es (step (ClickSpin r1 r2) s)) in *. clearbody mid.
  split; [exact Hs1 |].
  change (step TransitionEnd mid) with (transitionEnd mid).
  rewrite (transitionEnd_single _ _ L1). unfold h, outcomes.
  apply handleDone_fields.
Qed.

Lemma spin_result_fixed_at_click_witness :
  let mid := run [EditName1 "Bears"; Resize (Some 700); ClickSpin 0 0;
                  EditColor2 "#000000"]%string
                 (step (ClickSpin (1 # 2) (1 # 4)) named) in
  winner (step TransitionEnd mid)
  = JS.index (outcomes named)
             (winningIndex (targetRotation (rotation named) (1 # 2) (1 # 4))).
Proof.
  cbv zeta.
  refine (proj1 (proj2 (proj2
    (spin_result_fixed_at_click named (1 # 2) (1 # 4) _ _ _)))); reflexivity.
Defined.

(** X8: a whole spin from a state where the button is enabled ends with
    a winner stored but the modal still hidden and one more reveal timeout
    pending; the timeout then shows the modal. *)
Theorem round_hidden_then_revealed (d : Q * Q) (s : State) :
  ready s = true ->
  let s1 := spinRound d s in
  spinning s1 = false /\ winner s1 <> None /\
  showResult s1 = false /\ modalShown s1 = false /\
  timers s1 = S (timers s) /\
  modalShown (step RevealTimeout s1) = true /\
  winner (step RevealTimeout s1) = winner s1.
Proof.
  intro R. cbv zeta. apply ready_spec in R as [D L].
  pose proof D as D'. apply disable_false_iff in D' as [Hs _].
  unfold spinRound. cbn [step]. rewrite D, (spin_started _ _ s Hs), L.
  unfold transitionEnd. cbn [listeners setListeners app fold_left].
  set (h := mkHandler (targetRotation (rotation s) (fst d) (snd d)) (outcomes s)).
  pose proof (handleDone_winner (targetRotation (rotation s) (fst d) (snd d))
                (name (team1 s)) (name (team2 s))) as Wn.
  fold (outcomes s) in Wn. fold h in Wn.
  match goal with |- context [handleDone h ?x] => set (s0 := x) end.
  specialize (Wn s0).
  assert (Sh : showResult (handleDone h s0) = false) by reflexivity.
  assert (Tm : timers (handleDone h s0) = S (timers s)) by reflexivity.
  split; [reflexivity |]. split; [exact Wn |]. split; [exact Sh |].
  split; [unfold modalShown; now rewrite Sh |].
  split; [exact Tm |].
  unfold revealTimeout. rewrite Tm. unfold modalShown. cbn [showResult winner setShowResult setTimers].
  destruct (winner (handleDone h s0)); [split; reflexivity | congruence].
Qed.

Lemma round_hidden_then_revealed_witness :
  ready named = true /\
  modalShown (spinRound (1 # 2, 1 # 4) named) = false /\
  modalShown (step RevealTimeout (spinRound (1 # 2, 1 # 4) named)) = true.
Proof.
  assert (R : ready named = true) by reflexivity.
  destruct (round_hidden_then_revealed (1 # 2, 1 # 4) named R)
    as (_ & _ & _ & M & _ & M' & _).
  split; [exact R |]. split; [exact M | exact M'].
Defined.

(** X9: the SPIN AGAIN button of the modal starts no spin: it does what
    [reset] does and leaves the spinning flag, the rotation, the wheel,
    the listeners and the timers as they are; the spin button is the only
    way into a spin. *)
Theorem spin_again_only_resets (s : State) (e : Event) :
  spinAgain s = reset s /\
  spinning (step ClickSpinAgain s) = spinning s /\
  rotation (step ClickSpinAgain s) = rotation s /\
  wheelTransform (step ClickSpinAgain s) = wheelTransform s /\
  listeners (step ClickSpinAgain s) = listeners s /\
  timers (step ClickSpinAgain s) = timers s /\
  (spinning s = false -> spinning (step e s) = true ->
   exists r1 r2, e = ClickSpin r1 r2).
Proof.
  split; [reflexivity |].
  assert (F : forall P : State -> Prop, P s -> P (reset s) -> P (step ClickSpinAgain s)).
  { intros P H1 H2. cbn. destruct (modalShown s); assumption. }
  split; [apply (F (fun x => spinning x = spinning s)); reflexivity |].
  split; [apply (F (fun x => rotation x = rotation s)); reflexivity |].
  split; [apply (F (fun x => wheelTransform x = wheelTransform s)); reflexivity |].
  split; [apply (F (fun x => listeners x = listeners s)); reflexivity |].
  split; [apply (F (fun x => timers x = timers s)); reflexivity |].
  intros Hs H. destruct e; cbn [step] in H.
  1-4: cbn in H; congruence.
  - eexists _, _. reflexivity.
  - exfalso. revert H. unfold transitionEnd.
    generalize (setListeners [] s) (eq_refl : spinning (setListeners [] s) = spinning s).
    rewrite Hs. clear Hs.
    induction (listeners s) as [| h l IH]; intros s0 E H; cbn in H.
    + congruence.
    + apply (IH (handleDone h s0)); [reflexivity | exact H].
  - unfold revealTimeout in H. destruct (timers s); cbn in H; congruence.
  - destruct (modalShown s); cbn in H; congruence.
  - destruct (modalShown s); cbn in H; congruence.
  - cbn in H. congruence.
Qed.

Lemma spin_again_only_resets_witness :
  spinning named = false /\ spinning (step (ClickSpin 0 0) named) = true /\
  exists r1 r2, ClickSpin 0 0 = ClickSpin r1 r2.
Proof.
  assert (A : spinning named = false) by reflexivity.
  assert (B : spinning (step (ClickSpin 0 0) named) = true) by reflexivity.
  split; [exact A |]. split; [exact B |].
  exact (proj2 (proj2 (proj2 (proj2 (proj2 (proj2
    (spin_again_only_resets named (ClickSpin 0 0))))))) A B).
Defined.

(** ** Label geometry *)

Lemma round_within (x : Q) :
  x - (1 # 2) < inject_Z (JS.round x) /\ inject_Z (JS.round x) <= x + (1 # 2).
Proof.
  unfold JS.round. destruct (frac_floor (x + (1 # 2))) as [F1 F2]. split; lra.
Qed.

Lemma round_monotone (x y : Q) : x <= y -> (JS.round x <= JS.round y)%Z.
Proof. intro H. unfold JS.round. apply Qfloor_resp_le. lra. Qed.

Lemma clamp_monotone (n m lo hi : Z) :
  (n <= m)%Z -> (clamp n lo hi <= clamp m lo hi)%Z.
Proof. unfold clamp, JS.max, JS.min. lia. Qed.

(** X10: [clamp] keeps a value that lies between its bounds, is
    idempotent and monotone, never returns less than [min], and returns
    [min] when the bounds are crossed. *)
Theorem clamp_properties (n m lo hi : Z) :
  ((lo <= n <= hi)%Z -> clamp n lo hi = n) /\
  clamp (clamp n lo hi) lo hi = clamp n lo hi /\
  ((n <= m)%Z -> (clamp n lo hi <= clamp m lo hi)%Z) /\
  (lo <= clamp n lo hi)%Z /\
  ((hi < lo)%Z -> clamp n lo hi = lo).
Proof. unfold clamp, JS.max, JS.min. repeat split; lia. Qed.

Lemma clamp_properties_witness :
  (640 < 700)%Z /\ clamp 5 700 640 = 700%Z.
Proof.
  assert (H : (640 < 700)%Z) by lia.
  split; [exact H |].
  exact (proj2 (proj2 (proj2 (proj2 (clamp_properties 5 5 700 640)))) H).
Defined.

Section Geometry.
Variable size : Z.
Hypothesis size_lo : (320 <= size)%Z.
Hypothesis size_hi : (size <= 640)%Z.

Lemma size_Q : 320 <= inject_Z size /\ inject_Z size <= 640.
Proof.
  split; [change 320 with (inject_Z 320) | change 640 with (inject_Z 640)];
    now rewrite <- Zle_Qle.
Qed.

Lemma labelRadius_range : (122 <= labelRadius size <= 243)%Z.
Proof.
  unfold labelRadius. destruct size_Q as [A B].
  destruct (round_within (inject_Z size * (38 # 100))) as [R1 R2].
  set (r := JS.round (inject_Z size * (38 # 100))) in *. clearbody r.
  assert (L : inject_Z 121 < inject_Z r) by (change (inject_Z 121) with 121; lra).
  assert (U : inject_Z r < inject_Z 244) by (change (inject_Z 244) with 244; lra).
  rewrite <- Zlt_Qlt in L, U. lia.
Qed.

Lemma labelWidth_range : (109 <= labelWidth size <= 160)%Z.
Proof.
  unfold labelWidth. destruct size_Q as [A B].
  destruct (round_within (inject_Z size * (34 # 100))) as [R1 R2].
  set (r := JS.round (inject_Z size * (34 # 100))) in *. clearbody r.
  assert (L : inject_Z 108 < inject_Z r) by (change (inject_Z 108) with 108; lra).
  rewrite <- Zlt_Qlt in L. unfold clamp, JS.max, JS.min. lia.
Qed.

Lemma labelFont_range : (15 <= labelFont size <= 22)%Z.
Proof.
  unfold labelFont. destruct size_Q as [A B].
  destruct (round_within (inject_Z size * (48 # 1000))) as [R1 R2].
  set (r := JS.round (inject_Z size * (48 # 1000))) in *. clearbody r.
  assert (L : inject_Z 14 < inject_Z r) by (change (inject_Z 14) with 14; lra).
  rewrite <- Zlt_Qlt in L. unfold clamp, JS.max, JS.min. lia.
Qed.

Lemma hubSize_range : (64 <= hubSize size <= 92)%Z.
Proof. unfold hubSize. apply clamp_range. lia. Qed.

(** Twice the label radius stays below the wheel size. *)
Lemma labels_inside : (2 * labelRadius size < size)%Z.
Proof.
  unfold labelRadius. destruct size_Q as [A B].
  destruct (round_within (inject_Z size * (38 # 100))) as [R1 R2].
  set (r := JS.round (inject_Z size * (38 # 100))) in *. clearbody r.
  rewrite Zlt_Qlt, inject_Z_mult. change (inject_Z 2) with 2. lra.
Qed.

Lemma width_below_radius : (labelWidth size < labelRadius size)%Z.
Proof.
  unfold labelWidth, labelRadius. destruct size_Q as [A B].
  destruct (round_within (inject_Z size * (38 # 100))) as [R1 R2].
  destruct (round_within (inject_Z size * (34 # 100))) as [W1 W2].
  set (r := JS.round (inject_Z size * (38 # 100))) in *.
  set (w := JS.round (inject_Z size * (34 # 100))) in *. clearbody r w.
  assert (L : inject_Z 108 < inject_Z w) by (change (inject_Z 108) with 108; lra).
  assert (WR : inject_Z w < inject_Z r) by lra.
  rewrite <- Zlt_Qlt in L, WR. unfold clamp, JS.max, JS.min. lia.
Qed.

End Geometry.

(** X11: for every wheel size the component can have, from 320 to 640,
    the label radius lies in [122, 243], the label width in [109, 160],
    the font size in [15, 22] and the hub in [64, 92], so the lower bounds
    105 and 14 of the two label clamps are never the result; the labels
    are centred inside the wheel (twice the radius is below the size),
    outside the hub, and a label is narrower than the radius at which it
    is placed; the frame is 16 larger than the wheel. *)
Theorem label_geometry_bounds (size : Z) :
  (320 <= size)%Z -> (size <= 640)%Z ->
  (122 <= labelRadius size <= 243)%Z /\
  (109 <= labelWidth size <= 160)%Z /\
  (15 <= labelFont size <= 22)%Z /\
  (64 <= hubSize size <= 92)%Z /\
  (2 * labelRadius size < size)%Z /\
  (hubSize size < labelRadius size)%Z /\
  (labelWidth size < labelRadius size)%Z /\
  (336 <= frameSize size <= 656)%Z.
Proof.
  intros Lo Hi.
  pose proof (labelRadius_range size Lo Hi).
  pose proof (hubSize_range size).
  split; [assumption |].
  split; [apply labelWidth_range; assumption |].
  split; [apply labelFont_range; assumption |].
  split; [assumption |].
  split; [apply labels_inside; assumption |].
  split; [lia |].
  split; [apply width_below_radius; assumption |].
  unfold frameSize. lia.
Qed.

Lemma label_geometry_bounds_witness :
  (320 <= 380)%Z /\ (380 <= 640)%Z /\ (labelWidth 380 < labelRadius 380)%Z.
Proof.
  assert (A : (320 <= 380)%Z) by lia. assert (B : (380 <= 640)%Z) by lia.
  split; [exact A |]. split; [exact B |].
  exact (proj1 (proj2 (proj2 (proj2 (proj2 (proj2 (proj2
    (label_geometry_bounds 380 A B)))))))).
Defined.

(** X12: the label radius, label width, font size and hub size never
    shrink when the wheel grows, for any two sizes. *)
Theorem label_geometry_monotone (size size' : Z) :
  (size <= size')%Z ->
  (labelRadius size <= labelRadius size')%Z /\
  (labelWidth size <= labelWidth size')%Z /\
  (labelFont size <= labelFont size')%Z /\
  (hubSize size <= hubSize size')%Z.
Proof.
  intro H. rewrite Zle_Qle in H.
  unfold labelRadius, labelWidth, labelFont, hubSize.
  repeat split; try apply clamp_monotone; apply round_monotone; nra.
Qed.

Lemma label_geometry_monotone_witness :
  (320 <= 640)%Z /\ (labelFont 320 <= labelFont 640)%Z.
Proof.
  assert (A : (320 <= 640)%Z) by lia.
  split; [exact A |].
  exact (proj1 (proj2 (proj2 (label_geometry_monotone 320 640 A)))).
Defined.

(** ** The painted wheel and the modal *)

(** The three stops of the gradient, with their angles reduced. *)
Lemma gradient_stops_eq s :
  gradient_stops s
  = [ (color (team1 s), inject_Z 0 * (360 / inject_Z 3), inject_Z 1 * (360 / inject_Z 3));
      ("#1e293b"%string, inject_Z 1 * (360 / inject_Z 3), inject_Z 2 * (360 / inject_Z 3));
      (color (team2 s), inject_Z 2 * (360 / inject_Z 3), inject_Z 3 * (360 / inject_Z 3)) ].
Proof. reflexivity. Qed.

(** X13: the gradient paints three slices of 120 degrees, one after the
    other from 0 to 360, in the colors of team 1, the fixed draw color and
    team 2; the label of each outcome sits at the middle of its slice; and
    for every target rotation the slice with the index of the winner
    contains the effective angle and has the color in which the modal
    shows that winner. *)
Theorem gradient_matches_winner (s : State) (t : Q) :
  map (fun st => fst (fst st)) (gradient_stops s)
    = [color (team1 s); "#1e293b"%string; color (team2 s)] /\
  Forall2 (fun st i => snd (fst st) == segment_start i /\
                       snd st == segment_start (i + 1) /\
                       labelAngle s i == (snd (fst st) + snd st) / 2)
          (gradient_stops s) [0; 1; 2]%Z /\
  exists o c a b,
    JS.index (outcomes s) (winningIndex t) = Some o /\
    JS.index (gradient_stops s) (winningIndex t) = Some (c, a, b) /\
    c = getColor s (type o) /\
    a <= effectiveAngle t /\ effectiveAngle t < b.
Proof.
  rewrite gradient_stops_eq. split; [reflexivity |]. split.
  { repeat constructor; reflexivity. }
  destruct (winning_slice t) as [S1 S2].
  pose proof (winningIndex_range t) as R.
  assert (C : (winningIndex t = 0 \/ winningIndex t = 1 \/ winningIndex t = 2)%Z) by lia.
  unfold segment_start in S1, S2.
  destruct C as [E | [E | E]]; rewrite E in *; cbn [Z.add Pos.add Pos.succ] in S2;
    eexists _, _, _, _;
    (split; [reflexivity |]); (split; [reflexivity |]); (split; [reflexivity |]);
    split; assumption.
Qed.

Lemma final_pick_shape n1 n2 o :
  In o (outcomes_of n1 n2) ->
  finalPick o = label o /\ (type o = draw_t -> label o = "DRAW"%string).
Proof.
  intros [<- | [<- | [<- | []]]]; split; try reflexivity; discriminate.
Qed.

(** X14: in every reachable state a stored winner is one of the three
    outcomes, the draw always with the label DRAW, so the final pick line
    of the modal always shows exactly the label of the winner, and a team
    named DRAW is shown there like a draw. *)
Theorem final_pick_is_label (tr : list Event) (o : Outcome) :
  winner (run tr initial) = Some o ->
  finalPick o = label o /\
  (type o = draw_t -> label o = "DRAW"%string) /\
  finalPick (mkOutcome "DRAW" team1_t) = finalPick (mkOutcome "DRAW" draw_t).
Proof.
  intro W. destruct (reachable_inv tr) as [_ (_ & _ & _ & _ & L5)].
  destruct (L5 o W) as (n1 & n2 & I).
  destruct (final_pick_shape n1 n2 o I) as [F D].
  split; [exact F |]. split; [exact D | reflexivity].
Qed.

Lemma final_pick_is_label_witness :
  let tr := [EditName1 "Lions"; EditName2 "Tigers"; ClickSpin 0 (1 # 2);
             TransitionEnd]%string in
  winner (run tr initial) = Some (mkOutcome "DRAW" draw_t) /\
  finalPick (mkOutcome "DRAW" draw_t) = label (mkOutcome "DRAW" draw_t).
Proof.
  cbv zeta.
  assert (W : winner (run [EditName1 "Lions"; EditName2 "Tigers";
                           ClickSpin 0 (1 # 2); TransitionEnd]%string initial)
              = Some (mkOutcome "DRAW" draw_t)) by (vm_compute; reflexivity).
  split; [exact W |].
  exact (proj1 (final_pick_is_label _ _ W)).
Defined.

(** ** White space around a name *)

Lemma trim_start_spaces pre x :
  all_space pre = true -> JS.trim_start (pre ++ x) = JS.trim_start x.
Proof.
  induction pre as [| c r IH]; cbn; [reflexivity |].
  intro H. apply andb_true_iff in H as [Hc Hr]. rewrite Hc. apply IH, Hr.
Qed.

Lemma trim_start_all_space post :
  all_space post = true -> JS.trim_start post = ""%string.
Proof.
  induction post as [| c r IH]; cbn; [reflexivity |].
  intro H. apply andb_true_iff in H as [Hc Hr]. rewrite Hc. apply IH, Hr.
Qed.

Lemma trim_end_all_space post :
  all_space post = true -> JS.trim_end post = ""%string.
Proof.
  induction post as [| c r IH]; cbn; [reflexivity |].
  intro H. apply andb_true_iff in H as [Hc Hr]. rewrite (IH Hr), Hc. reflexivity.
Qed.

Lemma trim_end_spaces x post :
  all_space post = true -> JS.trim_end (x ++ post) = JS.trim_end x.
Proof.
  intro H. induction x as [| c r IH]; cbn.
  - apply trim_end_all_space, H.
  - rewrite IH. reflexivity.
Qed.

Lemma trim_padded pre n post :
  all_space pre = true -> all_space post = true ->
  JS.trim (pre ++ n ++ post) = JS.trim n.
Proof.
  intros Hpre Hpost. unfold JS.trim. rewrite (trim_start_spaces pre _ Hpre).
  induction n as [| c r IH]; cbn.
  - rewrite (trim_start_all_space post Hpost). reflexivity.
  - destruct (JS.is_space c); [exact IH |].
    change (String c (r ++ post)) with (String c r ++ post)%string.
    apply trim_end_spaces, Hpost.
Qed.

(** X15: white space typed before or after a name changes nothing for the
    spin button: the padded name enables or disables it exactly like the
    name itself, so a padded placeholder still disables it; the label on
    the wheel keeps the white space. *)
Theorem padding_keeps_disable (s : State) (pre n post : string) :
  all_space pre = true -> all_space post = true ->
  disable (step (EditName1 (pre ++ n ++ post)) s)
    = disable (step (EditName1 n) s) /\
  disable (step (EditName2 (pre ++ n ++ post)) s)
    = disable (step (EditName2 n) s) /\
  disable (step (EditName1 (pre ++ "Team 1" ++ post)) s) = true /\
  map label (outcomes (step (EditName1 (pre ++ n ++ post)) s))
    = [(pre ++ n ++ post)%string; "DRAW"%string; name (team2 s)].
Proof.
  intros Hpre Hpost.
  pose proof (trim_padded pre n post Hpre Hpost) as T.
  pose proof (trim_padded pre "Team 1" post Hpre Hpost) as T1.
  unfold disable. cbn [step setTeam1 setTeam2 team1 team2 name spinning].
  rewrite T, T1. split; [reflexivity |]. split; [reflexivity |].
  split; [| reflexivity].
  change (JS.trim "Team 1") with "Team 1"%string.
  rewrite String.eqb_refl. now rewrite !orb_true_r.
Qed.

Lemma padding_keeps_disable_witness :
  disable (step (EditName1 ("  " ++ "Lions" ++ " ")) named)
  = disable (step (EditName1 "Lions") named).
Proof.
  refine (proj1 (padding_keeps_disable named "  " "Lions" " " _ _)); reflexivity.
Defined.

(** ** Reveal timeouts are never cancelled *)

(** X16: a reveal timeout that fires after a new spin has started leaves
    the reveal flag set during that spin, and the end of its animation
    then shows the modal at once, without the delay; and a timeout that is
    still pending when the modal is closed opens it again. *)
Theorem stale_reveal_behaviour (tr : list Event) (s : State) :
  (spinning (run tr initial) = true -> showResult (run tr initial) = true ->
   modalShown (step TransitionEnd (run tr initial)) = true) /\
  (modalShown s = true -> timers s <> O ->
   modalShown (step ClickClose s) = false /\
   modalShown (step RevealTimeout (step ClickClose s)) = true).
Proof.
  split.
  - destruct (reachable_inv tr) as [W (L1 & _)].
    set (r := run tr initial) in *. clearbody r. intros Hs Sh.
    destruct (transitionEnd_cases r W) as [[L _] | (h & n1 & n2 & L & _ & Ho & E)];
      [elim (L1 Hs L) |].
    cbn [step]. rewrite E. destruct h as [t outs]. cbn in Ho. subst outs.
    pose proof (handleDone_winner t n1 n2 (setListeners [] r)) as Wn.
    unfold modalShown.
    change (showResult (handleDone (mkHandler t (outcomes_of n1 n2)) (setListeners [] r)))
      with (showResult r).
    rewrite Sh.
    destruct (winner (handleDone (mkHandler t (outcomes_of n1 n2)) (setListeners [] r)));
      [reflexivity | congruence].
  - intros M T. cbn [step]. rewrite M.
    unfold modalShown in M. apply andb_true_iff in M as [_ Mw].
    split; [reflexivity |].
    unfold revealTimeout. change (timers (closeResult s)) with (timers s).
    destruct (timers s) as [| k]; [congruence |].
    unfold modalShown. cbn. destruct (winner s); [reflexivity | discriminate Mw].
Qed.

Lemma stale_reveal_behaviour_witness :
  let tr := [EditName1 "Lions"; EditName2 "Tigers"; ClickSpin 0 0;
             TransitionEnd; ClickSpin 0 0; RevealTimeout]%string in
  spinning (run tr initial) = true /\ showResult (run tr initial) = true /\
  modalShown (step TransitionEnd (run tr initial)) = true /\
  modalShown (step RevealTimeout
               (step ClickClose (step TransitionEnd (run tr initial)))) = true.
Proof.
  cbv zeta.
  set (tr := [EditName1 "Lions"; EditName2 "Tigers"; ClickSpin 0 0;
              TransitionEnd; ClickSpin 0 0; RevealTimeout]%string).
  assert (A : spinning (run tr initial) = true) by reflexivity.
  assert (B : showResult (run tr initial) = true) by reflexivity.
  pose proof (proj1 (stale_reveal_behaviour tr initial) A B) as M.
  assert (T : timers (step TransitionEnd (run tr initial)) <> O)
    by (vm_compute; discriminate).
  split; [exact A |]. split; [exact B |]. split; [exact M |].
  exact (proj2 (proj2 (stale_reveal_behaviour tr _) M T)).
Defined.
